(** * The sphere form-factor kernel of sasmodels ([models/sphere.c])

    The kernel is three C functions over [double]: [form_volume], [Iq] and
    [Fq].  They are embedded here over Rocq's primitive binary64 floats,
    whose operations are the IEEE 754 ones with round-to-nearest-even, so
    every definition below computes, and rounding, signed zeros, infinities
    and NaN are those of the C program.

    Assumed of the C side: a strict binary64 evaluation (one rounding per
    operation, no extended precision), output pointers that are valid, and
    library functions that are pure functions of their arguments. *)

From Stdlib Require Import ZArith Bool Lia Floats.

Local Open Scope float_scope.

(** ** Data *)

(** A C [double]. *)
Definition double : Set := float.

(** The literal [1e-2] of [Fq]: the binary64 value nearest to one hundredth. *)
Definition c1e_2 : double := 0x1.47ae147ae147bp-7.

(** The two output parameters of [Fq] are pointers to [double].  Memory is a
    total map from addresses to the [double] stored there. *)
Definition ptr : Set := N.
Definition mem : Type := ptr -> double.

Definition load (m : mem) (p : ptr) : double := m p.

Definition store (p : ptr) (v : double) (m : mem) : mem :=
  fun p' => if N.eqb p' p then v else m p'.

(** ** The kernel

    [sphere_volume], [sas_3j1x_x] and [sphere_form] are functions of the
    shared library; the kernel only calls them.  They are taken as
    parameters: side-effect free functions of their [double] arguments. *)
Section Kernel.

Variable sphere_volume : double -> double.
Variable sas_3j1x_x : double -> double.
Variable sphere_form : double -> double -> double -> double -> double.

Definition form_volume (radius : double) : double :=
  sphere_volume radius.

Definition Iq (q sld sld_solvent radius : double) : double :=
  sphere_form q radius sld sld_solvent.

Definition Fq (q : double) (F1 F2 : ptr) (sld solvent_sld radius : double)
           (m : mem) : mem :=
  let fq := sas_3j1x_x (q * radius) in
  let contrast := sld - solvent_sld in
  let form := c1e_2 * contrast * sphere_volume radius * fq in
  let m1 := store F1 form m in
  store F2 (form * form) m1.

End Kernel.

(** ** The shared library, as far as the specification describes it *)
Module Lib.

(** The binary64 value nearest to 4π/3. *)
Definition four_thirds_pi : double := 0x1.0c152382d7366p+2.

(** Modelled from the spec: [sphere_volume], the shared geometry primitive,
    is not among the sources; the specification gives its value as
    (4/3)·π·radius³. *)
Definition sphere_volume (radius : double) : double :=
  four_thirds_pi * (radius * radius * radius).

(** Modelled from the spec: [sphere_form], the function [Iq] calls, is not
    among the sources; the specification gives the intensity as the second
    output of the amplitude evaluator, derived from the same formula. *)
Definition sphere_form (sphere_volume sas_3j1x_x : double -> double)
           (q radius sld solvent_sld : double) : double :=
  let form :=
    c1e_2 * (sld - solvent_sld) * sphere_volume radius * sas_3j1x_x (q * radius) in
  form * form.

(** Modelled from the spec: [sas_3j1x_x], the ratio 3·j1(x)/x, is not among
    the sources; the specification fixes its value at 0 and asks for a
    truncated Taylor series near 0.  This is that branch only,
    1 − x²/10 + x⁴/280; the closed form used for large [x] needs sine and
    cosine and is left out. *)
Definition sas_3j1x_x_series (x : double) : double :=
  let x2 := x * x in
  1 + x2 * (x2 * (1 / 280) - 1 / 10).

End Lib.

(** ** A sample call

    The scenario of the specification: radius 60, sld 1, solvent sld 6.3
    and q 0.001, with the outputs at two distinct addresses of a memory
    that holds zeros. *)
Module Sample.

Definition q : double := 0x1.0624dd2f1a9fcp-10.
Definition sld : double := 1.
Definition sld_solvent : double := 0x1.9333333333333p+2.
Definition radius : double := 60.
Definition F1 : ptr := 0%N.
Definition F2 : ptr := 1%N.
Definition m0 : mem := fun _ => 0.

End Sample.

(** ** The amplitude written by [Fq] and the comparison of doubles *)

(** The value [Fq] computes into its local [form]. *)
Definition form_of (sphere_volume sas_3j1x_x : double -> double)
           (q sld solvent_sld radius : double) : double :=
  c1e_2 * (sld - solvent_sld) * sphere_volume radius * sas_3j1x_x (q * radius).

(** Two doubles hold the same number: they are identical, or they compare
    equal with C's [==] (which identifies the two zeros and never holds of
    NaN). *)
Definition same_value (x y : double) : Prop :=
  x = y \/ (x =? y) = true.

(** ** Binary64 arithmetic

    Facts about the IEEE operations, proved on their specification
    ([SpecFloat]) and carried to the primitive floats. *)
Module IEEE.

Local Abbreviation bra := (binary_round_aux prec emax).

(** *** Classes of values, on the specification side *)

Definition SFis_nan (x : spec_float) : bool :=
  match x with S754_nan => true | _ => false end.

Definition SFis_zero (x : spec_float) : bool :=
  match x with S754_zero _ => true | _ => false end.

Definition SFis_finite (x : spec_float) : bool :=
  match x with S754_zero _ | S754_finite _ _ _ => true | _ => false end.

(** The sign bit ([true] for minus); NaN has none. *)
Definition SFsign (x : spec_float) : bool :=
  match x with
  | S754_zero s | S754_infinity s | S754_finite s _ _ => s
  | S754_nan => false
  end.

(** The double 1. *)
Definition SFone : spec_float := S754_finite false 4503599627370496 (-52).

(** A normal number: its mantissa has all [prec] = 53 bits. *)
Definition SFnormal (x : spec_float) : bool :=
  match x with
  | S754_finite _ m _ => (Zpos (digits2_pos m) =? prec)%Z
  | _ => false
  end.

(** A product whose exact value is in the normal range: the exact product
    of [mx·2^ex] and [my·2^ey] has [digits (mx·my)] significant bits above
    exponent [ex + ey], so its magnitude is at least
    2^(emin + prec − 1) = 2^-1022 when the sum below reaches [emin + prec]. *)
Definition SFproduct_normal (x y : spec_float) : bool :=
  match x, y with
  | S754_finite _ mx ex, S754_finite _ my ey =>
      (emin + prec <=? Zpos (digits2_pos (mx * my)) + (ex + ey))%Z
  | _, _ => false
  end.

(** [y] is [x] times 2^j: both are finite, with one sign and mantissa. *)
Definition SFscaled (j : Z) (x y : spec_float) : Prop :=
  exists s m e, x = S754_finite s m e /\ y = S754_finite s m (e + j).

(** *** The same classes on primitive floats *)

(** A value is a zero or NaN. *)
Definition zero_or_nan (x : float) : bool := is_zero x || is_nan x.

(** [x] is a normal number: finite, not zero, with a full 53-bit mantissa. *)
Definition is_normal (x : float) : bool :=
  match classify x with
  | PNormal | NNormal => true
  | _ => false
  end.

(** The exact product of [x] and [y] does not underflow: both are finite
    and not zero, and the magnitude of the product is at least 2^-1022. *)
Definition exact_product_normal (x y : float) : bool :=
  SFproduct_normal (Prim2SF x) (Prim2SF y).

(** The product [x * y] neither underflows nor overflows when scaled by 8. *)
Definition product_in_range (x y : float) : bool :=
  exact_product_normal x y && is_finite (8 * (x * y)).

(** [y] is [x] times 2^j, with the mantissa of [x]. *)
Definition scaled (j : Z) (x y : float) : Prop :=
  SFscaled j (Prim2SF x) (Prim2SF y).

(** *** Classification *)

Lemma SFcompare_finite_refl s m e :
  SFcompare (S754_finite s m e) (S754_finite s m e) = Some Eq.
Proof.
  cbn [SFcompare].
  rewrite Z.compare_refl, Pos.compare_cont_refl.
  destruct s; reflexivity.
Qed.

Lemma is_nan_spec (x : float) : is_nan x = SFis_nan (Prim2SF x).
Proof.
  unfold is_nan. rewrite eqb_spec. unfold SFeqb.
  destruct (Prim2SF x) as [s|s| |s m e]; try (destruct s; reflexivity).
  - reflexivity.
  - now rewrite SFcompare_finite_refl.
Qed.

Lemma is_zero_spec (x : float) : is_zero x = SFis_zero (Prim2SF x).
Proof.
  unfold is_zero. rewrite eqb_spec.
  change (Prim2SF zero) with (S754_zero false).
  destruct (Prim2SF x) as [s|s| |s m e]; try reflexivity;
    destruct s; reflexivity.
Qed.

Lemma is_infinity_spec (x : float) :
  is_infinity x = match Prim2SF x with S754_infinity _ => true | _ => false end.
Proof.
  unfold is_infinity. rewrite eqb_spec, abs_spec.
  change (Prim2SF infinity) with (S754_infinity false).
  destruct (Prim2SF x) as [s|s| |s m e]; reflexivity.
Qed.

Lemma is_finite_spec (x : float) : is_finite x = SFis_finite (Prim2SF x).
Proof.
  unfold is_finite. rewrite is_nan_spec, is_infinity_spec.
  destruct (Prim2SF x); reflexivity.
Qed.

Lemma is_normal_spec (x : float) : is_normal x = SFnormal (Prim2SF x).
Proof.
  unfold is_normal. rewrite classify_spec. unfold SF64classify, SFclassify, SFnormal.
  destruct (Prim2SF x) as [s|s| |s m e]; try (destruct s; reflexivity).
  - reflexivity.
  - destruct s; destruct (Z.eqb _ prec); reflexivity.
Qed.

Lemma valid_finite_emin (x : float) s m e :
  Prim2SF x = S754_finite s m e -> (emin <= e)%Z.
Proof.
  intros Hx. pose proof (Prim2SF_valid x) as Hv. rewrite Hx in Hv.
  cbn [valid_binary] in Hv. unfold bounded, canonical_mantissa, fexp in Hv.
  apply Bool.andb_true_iff in Hv. destruct Hv as [Hc _].
  apply Z.eqb_eq in Hc. fold emin in Hc. lia.
Qed.

(** *** Multiplication and the special values *)

Lemma SFmul_nan_r x : SF64mul x S754_nan = S754_nan.
Proof.
  destruct x; reflexivity.
Qed.

Lemma SFmul_not_finite_l x y :
  SFis_finite x = false -> SFis_finite (SF64mul x y) = false.
Proof.
  destruct x as [sx|sx| |sx mx ex], y as [sy|sy| |sy my ey];
    try discriminate; reflexivity.
Qed.

Lemma SFmul_not_finite_r x y :
  SFis_finite y = false -> SFis_finite (SF64mul x y) = false.
Proof.
  destruct x as [sx|sx| |sx mx ex], y as [sy|sy| |sy my ey];
    try discriminate; reflexivity.
Qed.

Lemma SFmul_zero_l x y :
  SFis_zero x = true -> SFis_finite y = true -> SFis_zero (SF64mul x y) = true.
Proof.
  destruct x as [sx|sx| |sx mx ex], y as [sy|sy| |sy my ey];
    try discriminate; reflexivity.
Qed.

Lemma SFmul_zero_r x y :
  SFis_finite x = true -> SFis_zero y = true -> SFis_zero (SF64mul x y) = true.
Proof.
  destruct x as [sx|sx| |sx mx ex], y as [sy|sy| |sy my ey];
    try discriminate; reflexivity.
Qed.

Lemma SFmul_zero_or_nan_l x y :
  SFis_zero x || SFis_nan x = true ->
  SFis_zero (SF64mul x y) || SFis_nan (SF64mul x y) = true.
Proof.
  destruct x as [sx|sx| |sx mx ex], y as [sy|sy| |sy my ey];
    try discriminate; reflexivity.
Qed.

Lemma SFmul_zero_self x :
  SFis_zero x = true -> SF64mul x x = S754_zero false.
Proof.
  destruct x as [sx|sx| |sx mx ex]; try discriminate.
  destruct sx; reflexivity.
Qed.

(** *** Signs *)

Lemma bra_opp s m e l : SFopp (bra s m e l) = bra (negb s) m e l.
Proof.
  unfold binary_round_aux.
  destruct (shr_fexp prec emax m e l) as [mrs' e'].
  destruct (shr_fexp prec emax _ e' loc_Exact) as [mrs'' e''].
  destruct (shr_m mrs''); try reflexivity.
  destruct (Z.leb e'' (emax - prec)); reflexivity.
Qed.

Lemma SFmul_opp_r x y :
  SF64mul x (SFopp y) = SFopp (SF64mul x y).
Proof.
  unfold SF64mul.
  destruct x as [sx|sx| |sx mx ex], y as [sy|sy| |sy my ey];
    cbn [SFmul SFopp]; rewrite ?bra_opp, ?Bool.negb_xorb_r; reflexivity.
Qed.

Lemma SFmul_opp_l x y :
  SF64mul (SFopp x) y = SFopp (SF64mul x y).
Proof.
  unfold SF64mul.
  destruct x as [sx|sx| |sx mx ex], y as [sy|sy| |sy my ey];
    cbn [SFmul SFopp]; rewrite ?bra_opp, ?Bool.negb_xorb_l; reflexivity.
Qed.

Lemma SFopp_involutive x : SFopp (SFopp x) = x.
Proof.
  destruct x; cbn; rewrite ?Bool.negb_involutive; reflexivity.
Qed.

Lemma mul_opp_r (x y : float) : x * (- y) = - (x * y).
Proof.
  apply Prim2SF_inj.
  now rewrite opp_spec, !mul_spec, opp_spec, SFmul_opp_r.
Qed.

Lemma mul_opp_l (x y : float) : (- x) * y = - (x * y).
Proof.
  apply Prim2SF_inj.
  now rewrite opp_spec, !mul_spec, opp_spec, SFmul_opp_l.
Qed.

Lemma opp_involutive (x : float) : - - x = x.
Proof.
  apply Prim2SF_inj. now rewrite !opp_spec, SFopp_involutive.
Qed.

Lemma mul_opp_opp (x y : float) : (- x) * (- y) = x * y.
Proof.
  now rewrite mul_opp_l, mul_opp_r, opp_involutive.
Qed.

(** *** Subtraction *)

Lemma binary_round_opp s m e :
  SFopp (binary_round prec emax s m e) = binary_round prec emax (negb s) m e.
Proof.
  unfold binary_round.
  destruct (shl_align m e _) as [mz ez]. apply bra_opp.
Qed.

Lemma binary_normalize_opp m e :
  m <> 0%Z ->
  binary_normalize prec emax (- m) e false =
  SFopp (binary_normalize prec emax m e false).
Proof.
  destruct m as [|p|p]; intros Hm; [now elim Hm| |]; cbn [Z.opp binary_normalize];
    now rewrite binary_round_opp.
Qed.

Lemma SFsub_swap x y :
  SF64sub y x = SFopp (SF64sub x y) \/
  (SF64sub x y = S754_zero false /\ SF64sub y x = S754_zero false).
Proof.
  unfold SF64sub.
  destruct x as [sx|sx| |sx mx ex], y as [sy|sy| |sy my ey]; cbn [SFsub SFopp];
    try (left; reflexivity);
    try (destruct sx, sy; (left; reflexivity) || (right; split; reflexivity)).
  rewrite (Z.min_comm ey ex).
  set (a := cond_Zopp sx _). set (b := cond_Zopp sy _).
  destruct (Z.eq_dec (a - b) 0) as [Hz|Hnz].
  - right. replace (b - a)%Z with 0%Z by lia. rewrite Hz. split; reflexivity.
  - left. replace (b - a)%Z with (- (a - b))%Z by lia.
    now apply binary_normalize_opp.
Qed.

Lemma sub_swap (x y : float) :
  y - x = - (x - y) \/ (x - y = 0 /\ y - x = 0).
Proof.
  destruct (SFsub_swap (Prim2SF x) (Prim2SF y)) as [H|[H1 H2]].
  - left. apply Prim2SF_inj. now rewrite opp_spec, !sub_spec.
  - right. split; apply Prim2SF_inj; rewrite sub_spec; assumption.
Qed.

Lemma SFeqb_finite_eq s1 m1 e1 s2 m2 e2 :
  SFeqb (S754_finite s1 m1 e1) (S754_finite s2 m2 e2) = true ->
  s1 = s2 /\ m1 = m2 /\ e1 = e2.
Proof.
  unfold SFeqb. cbn [SFcompare].
  destruct s1, s2; try discriminate;
    destruct (Z.compare_spec e1 e2) as [He|He|He]; try discriminate;
    rewrite Pos.compare_cont_spec; cbn [Pos.switch_Eq];
    destruct (Pos.compare_spec m1 m2) as [Hm|Hm|Hm]; try discriminate;
    intros _; subst; auto.
Qed.

Lemma SFsub_eq_zero x y :
  SFis_finite x = true -> SFeqb x y = true ->
  SFis_zero (SF64sub x y) = true.
Proof.
  unfold SF64sub.
  destruct x as [sx|sx| |sx mx ex], y as [sy|sy| |sy my ey];
    try discriminate; intros _ Heq;
    try (destruct sx, sy; cbn in Heq; discriminate Heq).
  - destruct sx, sy; reflexivity.
  - apply SFeqb_finite_eq in Heq. destruct Heq as (-> & -> & ->).
    cbn [SFsub]. now rewrite Z.sub_diag.
Qed.

(** *** Exact products

    A product whose exact value is a binary64 number is returned
    unchanged: the rounding of [m·2^k] at exponent [e − k] is [m] at
    exponent [e] whenever that pair is canonical, or an infinity when [e]
    is too large. *)

Lemma digits2_shift_pos k m :
  digits2_pos (shift_pos k m) = (digits2_pos m + k)%positive.
Proof.
  unfold shift_pos. revert m.
  induction k as [k IH|k IH|]; intros m; cbn [Pos.iter digits2_pos];
    rewrite ?IH; lia.
Qed.

Lemma iter_shr_1_shift_pos k m :
  iter_pos shr_1 k (Build_shr_record (Zpos (shift_pos k m)) false false) =
  Build_shr_record (Zpos m) false false.
Proof.
  unfold shift_pos. revert m.
  induction k as [k IH|k IH|]; intros m; cbn [Pos.iter iter_pos shr_1 orb].
  - now rewrite !IH.
  - now rewrite !IH.
  - reflexivity.
Qed.

Lemma bra_shift_canonical s m e k :
  canonical_mantissa prec emax m e = true ->
  bra s (Zpos (shift_pos k m)) (e - Zpos k) loc_Exact =
  if (e <=? emax - prec)%Z then S754_finite s m e else S754_infinity s.
Proof.
  unfold canonical_mantissa. rewrite Z.eqb_eq. intros Hc.
  unfold binary_round_aux, shr_fexp.
  cbn [Zdigits2 shr_record_of_loc]. rewrite digits2_shift_pos.
  replace (Zpos (digits2_pos m + k) + (e - Zpos k))%Z
    with (Zpos (digits2_pos m) + e)%Z by lia.
  rewrite Hc.
  replace (e - (e - Zpos k))%Z with (Zpos k) by lia.
  cbn [shr]. rewrite iter_shr_1_shift_pos.
  cbn [shr_m loc_of_shr_record round_nearest_even Zdigits2].
  replace (e - Zpos k + Zpos k)%Z with e by lia.
  rewrite Hc, Z.sub_diag. reflexivity.
Qed.

Lemma SFmul_one_r x :
  valid_binary x = true -> SF64mul x SFone = x.
Proof.
  unfold SF64mul, SFone.
  destruct x as [sx|sx| |sx mx ex]; cbn [SFmul valid_binary];
    rewrite ?Bool.xorb_false_r; try reflexivity.
  intros Hv.
  rewrite Pos.mul_comm.
  change (4503599627370496 * mx)%positive with (shift_pos 52 mx).
  change (ex + -52)%Z with (ex - 52)%Z.
  unfold bounded in Hv. apply Bool.andb_true_iff in Hv. destruct Hv as [Hc Hb].
  rewrite bra_shift_canonical by exact Hc. now rewrite Hb.
Qed.

Lemma mul_one_r (x : float) : x * 1 = x.
Proof.
  apply Prim2SF_inj. rewrite mul_spec.
  change (Prim2SF 1) with SFone.
  apply SFmul_one_r, Prim2SF_valid.
Qed.

Lemma SFmul_pow2 j s m e :
  (Zpos (digits2_pos m) = prec)%Z -> (emin <= e)%Z -> (0 <= j)%Z ->
  SF64mul (S754_finite false 4503599627370496 (j - 52)) (S754_finite s m e) =
  if (e + j <=? emax - prec)%Z then S754_finite s m (e + j) else S754_infinity s.
Proof.
  intros Hm He Hj. unfold SF64mul. cbn [SFmul xorb].
  change (4503599627370496 * m)%positive with (shift_pos 52 m).
  replace (j - 52 + e)%Z with (e + j - 52)%Z by lia.
  apply bra_shift_canonical.
  unfold canonical_mantissa, fexp. rewrite Hm. apply Z.eqb_eq.
  fold emin. lia.
Qed.

(** *** The operations on primitive floats *)

Lemma mul_zero_pos (r : float) :
  (0 <? r) = true -> is_finite r = true -> 0 * r = 0.
Proof.
  rewrite ltb_spec, is_finite_spec. intros Hlt Hfin.
  apply Prim2SF_inj. rewrite mul_spec.
  change (Prim2SF 0) with (S754_zero false) in *.
  destruct (Prim2SF r) as [s|s| |s m e]; try discriminate.
  destruct s; [discriminate | reflexivity].
Qed.

Lemma mul_not_finite_l (x y : float) :
  is_finite x = false -> is_finite (x * y) = false.
Proof.
  rewrite !is_finite_spec, mul_spec. apply SFmul_not_finite_l.
Qed.

Lemma mul_not_finite_r (x y : float) :
  is_finite y = false -> is_finite (x * y) = false.
Proof.
  rewrite !is_finite_spec, mul_spec. apply SFmul_not_finite_r.
Qed.

Lemma mul_nan_l (x y : float) : is_nan x = true -> is_nan (x * y) = true.
Proof.
  rewrite !is_nan_spec, mul_spec.
  destruct (Prim2SF x); try discriminate. reflexivity.
Qed.

Lemma mul_nan_r (x y : float) : is_nan y = true -> is_nan (x * y) = true.
Proof.
  rewrite !is_nan_spec, mul_spec.
  destruct (Prim2SF y); try discriminate. now rewrite SFmul_nan_r.
Qed.

Lemma sub_nan (x y : float) :
  is_nan x || is_nan y = true -> is_nan (x - y) = true.
Proof.
  rewrite !is_nan_spec, sub_spec.
  destruct (Prim2SF x), (Prim2SF y); try discriminate; reflexivity.
Qed.

Lemma sub_not_finite (x y : float) :
  is_finite x && is_finite y = false -> is_finite (x - y) = false.
Proof.
  rewrite !is_finite_spec, sub_spec.
  destruct (Prim2SF x) as [sx|sx| |sx mx ex], (Prim2SF y) as [sy|sy| |sy my ey];
    try discriminate; try reflexivity; destruct sx, sy; reflexivity.
Qed.

Lemma mul_zero_l (x y : float) :
  is_zero x = true -> is_finite y = true -> is_zero (x * y) = true.
Proof.
  rewrite !is_zero_spec, is_finite_spec, mul_spec. apply SFmul_zero_l.
Qed.

Lemma mul_zero_r (x y : float) :
  is_finite x = true -> is_zero y = true -> is_zero (x * y) = true.
Proof.
  rewrite !is_zero_spec, is_finite_spec, mul_spec. apply SFmul_zero_r.
Qed.

Lemma mul_zero_self (x : float) : is_zero x = true -> x * x = 0.
Proof.
  rewrite is_zero_spec. intros H. apply Prim2SF_inj.
  rewrite mul_spec. now apply SFmul_zero_self.
Qed.

Lemma sub_eq_zero (x y : float) :
  is_finite x = true -> (x =? y) = true -> is_zero (x - y) = true.
Proof.
  rewrite is_finite_spec, eqb_spec, is_zero_spec, sub_spec.
  apply SFsub_eq_zero.
Qed.

Lemma zero_or_nan_mul_l (x y : float) :
  zero_or_nan x = true -> zero_or_nan (x * y) = true.
Proof.
  unfold zero_or_nan. rewrite !is_zero_spec, !is_nan_spec, mul_spec.
  apply SFmul_zero_or_nan_l.
Qed.

Lemma zero_or_nan_eqb_opp (x : float) :
  zero_or_nan x = true -> x = - x \/ (x =? - x) = true.
Proof.
  unfold zero_or_nan. rewrite is_zero_spec, is_nan_spec.
  intros H.
  destruct (Prim2SF x) as [s|s| |s m e] eqn:Hx; try discriminate.
  - right. rewrite eqb_spec, opp_spec, Hx. destruct s; reflexivity.
  - left. apply Prim2SF_inj. now rewrite opp_spec, Hx.
Qed.

(** *** Scaling by a power of two

    Multiplying an operand of a product by 2^k multiplies the rounded
    product by 2^k, as long as the exact product is not below the normal
    range (where the rounding step is absolute, not relative). *)

Lemma digits2_pos_size p : digits2_pos p = Pos.size p.
Proof.
  induction p as [p IH|p IH|]; cbn; now rewrite ?IH.
Qed.

Lemma Zdigits2_log2 m : (0 < m)%Z -> Zdigits2 m = (Z.log2 m + 1)%Z.
Proof.
  destruct m as [|p|p]; try lia. intros _.
  destruct p as [p|p|]; cbn [Zdigits2 digits2_pos Z.log2];
    rewrite ?digits2_pos_size; lia.
Qed.

Lemma shr_m_shr_1 mrs :
  (0 <= shr_m mrs)%Z -> shr_m (shr_1 mrs) = Z.div2 (shr_m mrs).
Proof.
  destruct mrs as [m r s]. cbn [shr_m].
  destruct m as [|p|p]; [reflexivity| |lia].
  intros _. destruct p; reflexivity.
Qed.

Lemma shr_m_iter_shr_1 n mrs :
  (0 <= shr_m mrs)%Z ->
  shr_m (iter_pos shr_1 n mrs) = Z.shiftr (shr_m mrs) (Zpos n).
Proof.
  revert mrs.
  induction n as [n IH|n IH|]; intros mrs Hm; cbn [iter_pos].
  - assert (H1 : (0 <= shr_m (shr_1 mrs))%Z)
      by (rewrite shr_m_shr_1, Z.div2_spec by exact Hm; now apply Z.shiftr_nonneg).
    assert (H2 : (0 <= shr_m (iter_pos shr_1 n (shr_1 mrs)))%Z)
      by (rewrite IH by exact H1; now apply Z.shiftr_nonneg).
    rewrite (IH _ H2), (IH _ H1), shr_m_shr_1, Z.div2_spec by exact Hm.
    rewrite !Z.shiftr_shiftr by lia. f_equal. lia.
  - assert (H1 : (0 <= shr_m (iter_pos shr_1 n mrs))%Z)
      by (rewrite IH by exact Hm; now apply Z.shiftr_nonneg).
    rewrite (IH _ H1), (IH _ Hm).
    rewrite !Z.shiftr_shiftr by lia. f_equal. lia.
  - rewrite shr_m_shr_1, Z.div2_spec by exact Hm. reflexivity.
Qed.

Lemma Zdigits2_shiftr m n :
  (0 < m)%Z -> (0 <= n < Zdigits2 m)%Z ->
  (0 < Z.shiftr m n)%Z /\ Zdigits2 (Z.shiftr m n) = (Zdigits2 m - n)%Z.
Proof.
  intros Hm Hn. rewrite (Zdigits2_log2 m Hm) in Hn |- *.
  assert (Hl : Z.log2 (Z.shiftr m n) = (Z.log2 m - n)%Z)
    by (rewrite Z.log2_shiftr by exact Hm; lia).
  assert (Hp : (0 < Z.shiftr m n)%Z).
  { rewrite Z.shiftr_div_pow2 by lia.
    apply Z.div_str_pos. split; [apply Z.pow_pos_nonneg; lia|].
    pose proof (Z.log2_spec m Hm) as [Hlo _].
    pose proof (Z.pow_le_mono_r 2 n (Z.log2 m)). lia. }
  split; [exact Hp|]. rewrite (Zdigits2_log2 _ Hp). lia.
Qed.

Lemma round_nearest_even_cases v l :
  round_nearest_even v l = v \/ round_nearest_even v l = (v + 1)%Z.
Proof.
  unfold round_nearest_even.
  destruct l as [|[| |]]; auto. destruct (Z.even v); auto.
Qed.

Lemma Zdigits2_round v l :
  (0 < v)%Z ->
  (0 < round_nearest_even v l)%Z /\
  (Zdigits2 v <= Zdigits2 (round_nearest_even v l) <= Zdigits2 v + 1)%Z.
Proof.
  intros Hv.
  destruct (round_nearest_even_cases v l) as [-> | ->]; [lia|].
  split; [lia|]. rewrite !Zdigits2_log2 by lia.
  pose proof (Z.log2_le_mono v (v + 1)). pose proof (Z.log2_succ_le v).
  unfold Z.succ in *. lia.
Qed.

Lemma shr_fexp_normal m e l :
  (emin + prec <= Zdigits2 m + e)%Z ->
  shr_fexp prec emax m e l = shr (shr_record_of_loc m l) e (Zdigits2 m - prec).
Proof.
  intros H. unfold shr_fexp, fexp. rewrite Z.max_l by (fold emin; lia).
  f_equal. lia.
Qed.

(** In the normal range the rounding of [M·2^E] is some 53-bit mantissa [m]
    at some exponent [e], and that of [M·2^(E+k)] is the same [m] at [e + k]
    (or an infinity once the exponent is too large). *)
Lemma bra_normal_range s M E :
  (prec <= Zpos (digits2_pos M))%Z ->
  (emin + prec <= Zpos (digits2_pos M) + E)%Z ->
  exists m e,
    Zpos (digits2_pos m) = prec /\ (emin <= e)%Z /\
    forall k, (0 <= k)%Z ->
      bra s (Zpos M) (E + k) loc_Exact =
      if (e + k <=? emax - prec)%Z then S754_finite s m (e + k) else S754_infinity s.
Proof.
  intros Hd Hr.
  assert (Hprec : (0 < prec)%Z) by reflexivity.
  destruct (Zpos (digits2_pos M) - prec)%Z as [|n|n] eqn:Hn; [| |lia].
  - exists M, E. split; [lia|]. split; [lia|]. intros k Hk.
    unfold binary_round_aux.
    rewrite shr_fexp_normal by (cbn [Zdigits2]; lia).
    cbn [Zdigits2 shr_record_of_loc]. rewrite Hn.
    cbn [shr shr_m loc_of_shr_record round_nearest_even].
    rewrite shr_fexp_normal by (cbn [Zdigits2]; lia).
    cbn [Zdigits2 shr_record_of_loc]. rewrite Hn. cbn [shr shr_m].
    reflexivity.
  - set (mrs := iter_pos shr_1 n (Build_shr_record (Zpos M) false false)).
    assert (Hv : shr_m mrs = Z.shiftr (Zpos M) (Zpos n))
      by (unfold mrs; rewrite shr_m_iter_shr_1; cbn [shr_m]; [reflexivity | lia]).
    destruct (Zdigits2_shiftr (Zpos M) (Zpos n)) as [Hvpos Hvd];
      [lia | cbn [Zdigits2]; lia |].
    rewrite <- Hv in Hvpos, Hvd. cbn [Zdigits2] in Hvd.
    set (m1 := round_nearest_even (shr_m mrs) (loc_of_shr_record mrs)).
    destruct (Zdigits2_round (shr_m mrs) (loc_of_shr_record mrs) Hvpos) as [Hm1 Hd1].
    fold m1 in Hm1, Hd1.
    assert (Hfirst : forall k, (0 <= k)%Z ->
       bra s (Zpos M) (E + k) loc_Exact =
       let '(mrs'', e'') := shr_fexp prec emax m1 (E + k + Zpos n) loc_Exact in
       match shr_m mrs'' with
       | Z0 => S754_zero s
       | Zpos m => if (e'' <=? emax - prec)%Z then S754_finite s m e'' else S754_infinity s
       | Zneg _ => S754_nan
       end).
    { intros k Hk. unfold binary_round_aux.
      rewrite shr_fexp_normal by (cbn [Zdigits2]; lia).
      cbn [Zdigits2 shr_record_of_loc]. rewrite Hn. cbn [shr]. reflexivity. }
    destruct (Z.eq_dec (Zdigits2 m1) prec) as [He|He].
    + destruct m1 as [|pm|pm] eqn:Em1; try lia.
      exists pm, (E + Zpos n)%Z. cbn [Zdigits2] in He.
      split; [exact He|]. split; [lia|]. intros k Hk.
      rewrite (Hfirst k Hk).
      rewrite shr_fexp_normal by (cbn [Zdigits2]; lia).
      cbn [Zdigits2 shr_record_of_loc]. rewrite He, Z.sub_diag. cbn [shr shr_m].
      replace (E + k + Zpos n)%Z with (E + Zpos n + k)%Z by lia. reflexivity.
    + assert (He1 : Zdigits2 m1 = (prec + 1)%Z) by lia.
      destruct (Zdigits2_shiftr m1 1) as [Hp2 Hd2]; [lia | lia |].
      destruct (Z.shiftr m1 1) as [|pm|pm] eqn:Em2; try lia.
      exists pm, (E + Zpos n + 1)%Z. cbn [Zdigits2] in Hd2.
      split; [lia|]. split; [lia|]. intros k Hk.
      rewrite (Hfirst k Hk).
      rewrite shr_fexp_normal by lia.
      rewrite He1. replace (prec + 1 - prec)%Z with 1%Z by lia.
      cbn [shr iter_pos shr_record_of_loc].
      rewrite shr_m_shr_1 by (cbn [shr_m]; lia). cbn [shr_m].
      rewrite Z.div2_spec, Em2.
      replace (E + k + Zpos n + 1)%Z with (E + Zpos n + 1 + k)%Z by lia. reflexivity.
Qed.

Lemma digits2_pos_mul_r mx my :
  (Zpos (digits2_pos my) <= Zpos (digits2_pos (mx * my)))%Z.
Proof.
  change (Zdigits2 (Zpos my) <= Zdigits2 (Zpos (mx * my)))%Z.
  rewrite !Zdigits2_log2 by lia.
  pose proof (Z.log2_le_mono (Zpos my) (Zpos (mx * my))). nia.
Qed.

Lemma digits2_pos_mul_l mx my :
  (Zpos (digits2_pos mx) <= Zpos (digits2_pos (mx * my)))%Z.
Proof.
  rewrite Pos.mul_comm. apply digits2_pos_mul_r.
Qed.

Lemma SFmul_scaled j1 j2 x1 y1 x2 y2 :
  SFscaled j1 x1 y1 -> SFscaled j2 x2 y2 ->
  (0 <= j1)%Z -> (0 <= j2)%Z ->
  SFnormal x1 || SFnormal x2 = true ->
  SFproduct_normal x1 x2 = true ->
  exists s m e,
    Zpos (digits2_pos m) = prec /\ (emin <= e)%Z /\
    SF64mul x1 x2 =
      (if (e <=? emax - prec)%Z then S754_finite s m e else S754_infinity s) /\
    SF64mul y1 y2 =
      (if (e + (j1 + j2) <=? emax - prec)%Z
       then S754_finite s m (e + (j1 + j2)) else S754_infinity s).
Proof.
  intros (s1 & m1 & e1 & -> & ->) (s2 & m2 & e2 & -> & ->) Hj1 Hj2 Hn Hr.
  cbn [SFproduct_normal] in Hr. apply Z.leb_le in Hr.
  assert (Hd : (prec <= Zpos (digits2_pos (m1 * m2)))%Z).
  { cbn [SFnormal] in Hn. apply Bool.orb_true_iff in Hn.
    destruct Hn as [Hn|Hn]; apply Z.eqb_eq in Hn; rewrite <- Hn;
      [apply digits2_pos_mul_l | apply digits2_pos_mul_r]. }
  destruct (bra_normal_range (xorb s1 s2) (m1 * m2) (e1 + e2) Hd Hr)
    as (m & e & Hm & He & Hk).
  exists (xorb s1 s2), m, e. split; [exact Hm|]. split; [exact He|].
  unfold SF64mul. cbn [SFmul]. split.
  - rewrite <- (Z.add_0_r (e1 + e2)), (Hk 0%Z) by lia. now rewrite Z.add_0_r.
  - replace (e1 + j1 + (e2 + j2))%Z with (e1 + e2 + (j1 + j2))%Z by lia.
    apply Hk. lia.
Qed.

Lemma scaled_refl (x : float) s m e :
  Prim2SF x = S754_finite s m e -> scaled 0 x x.
Proof.
  intros Hx. exists s, m, e. now rewrite Z.add_0_r.
Qed.

Lemma scaled_pow2 (c x : float) j :
  Prim2SF c = S754_finite false 4503599627370496 (j - 52) -> (0 <= j)%Z ->
  is_normal x = true -> is_finite (c * x) = true ->
  scaled j x (c * x).
Proof.
  intros Hc Hj Hn Hf. rewrite is_normal_spec in Hn. rewrite is_finite_spec in Hf.
  unfold scaled. rewrite mul_spec in *. rewrite Hc in *.
  destruct (Prim2SF x) as [s|s| |s m e] eqn:Hx; try discriminate.
  cbn [SFnormal] in Hn. apply Z.eqb_eq in Hn.
  pose proof (valid_finite_emin x s m e Hx) as He.
  rewrite (SFmul_pow2 j s m e Hn He Hj) in *.
  exists s, m, e. split; [reflexivity|].
  destruct (Z.leb (e + j) (emax - prec)); [reflexivity | discriminate].
Qed.

Lemma scaled_mul (x x' y y' : float) j1 j2 :
  scaled j1 x x' -> scaled j2 y y' ->
  (0 <= j1)%Z -> (0 <= j2)%Z -> (j1 + j2 <= 3)%Z ->
  is_normal x || is_normal y = true ->
  product_in_range x y = true ->
  scaled (j1 + j2) (x * y) (x' * y') /\ is_normal (x * y) = true.
Proof.
  intros Hx Hy Hj1 Hj2 Hj Hn Hr.
  unfold product_in_range, exact_product_normal in Hr.
  apply Bool.andb_true_iff in Hr. destruct Hr as [Hr Hf].
  rewrite !is_normal_spec in Hn.
  destruct (SFmul_scaled j1 j2 _ _ _ _ Hx Hy Hj1 Hj2 Hn Hr)
    as (s & m & e & Hm & He & Hxy & Hxy').
  rewrite is_finite_spec, mul_spec, mul_spec in Hf.
  change (Prim2SF 8) with (S754_finite false 4503599627370496 (3 - 52)) in Hf.
  rewrite Hxy in Hf.
  destruct (Z.leb_spec e (emax - prec)) as [Hle|Hgt]; [|discriminate].
  rewrite (SFmul_pow2 3 s m e Hm He) in Hf by lia.
  destruct (Z.leb_spec (e + 3) (emax - prec)) as [Hle3|Hgt3]; [|discriminate].
  rewrite is_normal_spec. unfold scaled. rewrite !mul_spec, Hxy, Hxy'.
  split.
  - exists s, m, e. split; [reflexivity|].
    destruct (Z.leb_spec (e + (j1 + j2)) (emax - prec)); [reflexivity | lia].
  - cbn [SFnormal]. now apply Z.eqb_eq.
Qed.

Lemma scaled_8 (x x' : float) :
  scaled 3 x x' -> is_normal x = true -> x' = 8 * x.
Proof.
  intros (s & m & e & Hx & Hx') Hn.
  rewrite is_normal_spec, Hx in Hn. cbn [SFnormal] in Hn. apply Z.eqb_eq in Hn.
  apply Prim2SF_inj. rewrite mul_spec, Hx, Hx'.
  change (Prim2SF 8) with (S754_finite false 4503599627370496 (3 - 52)).
  rewrite (SFmul_pow2 3 s m e Hn (valid_finite_emin x s m e Hx)) by lia.
  pose proof (Prim2SF_valid x') as Hv. rewrite Hx' in Hv.
  cbn [valid_binary] in Hv. unfold bounded in Hv.
  apply Bool.andb_true_iff in Hv. destruct Hv as [_ Hb].
  now rewrite Hb.
Qed.

Lemma exact_product_normal_finite_l (x y : float) :
  exact_product_normal x y = true -> exists s m e, Prim2SF x = S754_finite s m e.
Proof.
  unfold exact_product_normal, SFproduct_normal.
  destruct (Prim2SF x) as [s|s| |s m e]; try discriminate. now exists s, m, e.
Qed.

Lemma exact_product_normal_finite_r (x y : float) :
  exact_product_normal x y = true -> exists s m e, Prim2SF y = S754_finite s m e.
Proof.
  unfold exact_product_normal, SFproduct_normal.
  destruct (Prim2SF x) as [sx|sx| |sx mx ex]; try discriminate.
  destruct (Prim2SF y) as [s|s| |s m e]; try discriminate. now exists s, m, e.
Qed.

Lemma product_in_range_exact (x y : float) :
  product_in_range x y = true -> exact_product_normal x y = true.
Proof.
  unfold product_in_range. now intros [H _]%Bool.andb_true_iff.
Qed.

(** *** Signs and NaN of products and differences

    A rounded product carries the exclusive or of the signs of its operands
    and is NaN only for a NaN operand or for zero times infinity; a square
    is never negative. *)

Lemma shr_record_of_loc_m m l : shr_m (shr_record_of_loc m l) = m.
Proof.
  destruct l as [|[| |]]; reflexivity.
Qed.

Lemma shr_fexp_nonneg m e l :
  (0 <= m)%Z -> (0 <= shr_m (fst (shr_fexp prec emax m e l)))%Z.
Proof.
  intros Hm. unfold shr_fexp, shr.
  destruct (fexp prec emax (Zdigits2 m + e) - e)%Z as [|n|n]; cbn [fst];
    rewrite ?shr_m_iter_shr_1; rewrite ?shr_record_of_loc_m;
    try apply Z.shiftr_nonneg; exact Hm.
Qed.

Lemma bra_sign s M E l :
  SFis_nan (bra s (Zpos M) E l) = false /\ SFsign (bra s (Zpos M) E l) = s.
Proof.
  unfold binary_round_aux.
  pose proof (shr_fexp_nonneg (Zpos M) E l ltac:(lia)) as H1.
  destruct (shr_fexp prec emax (Zpos M) E l) as [mrs' e']. cbn [fst] in H1.
  set (m1 := round_nearest_even (shr_m mrs') (loc_of_shr_record mrs')).
  assert (Hm1 : (0 <= m1)%Z)
    by (unfold m1; destruct (round_nearest_even_cases (shr_m mrs') (loc_of_shr_record mrs'))
          as [-> | ->]; lia).
  pose proof (shr_fexp_nonneg m1 e' loc_Exact Hm1) as H2.
  destruct (shr_fexp prec emax m1 e' loc_Exact) as [mrs'' e'']. cbn [fst] in H2.
  destruct (shr_m mrs'') as [|m|m]; [split; reflexivity| |lia].
  destruct (Z.leb e'' (emax - prec)); split; reflexivity.
Qed.

Lemma SFmul_sign x y :
  SFis_nan (SF64mul x y) = false ->
  SFsign (SF64mul x y) = xorb (SFsign x) (SFsign y).
Proof.
  unfold SF64mul.
  destruct x as [sx|sx| |sx mx ex], y as [sy|sy| |sy my ey]; cbn [SFmul SFsign];
    try discriminate; try reflexivity.
  intros _. apply bra_sign.
Qed.

Lemma SFmul_not_nan x y :
  SFis_nan (SF64mul x y) = false -> SFis_nan x = false /\ SFis_nan y = false.
Proof.
  destruct x as [sx|sx| |sx mx ex], y as [sy|sy| |sy my ey];
    try discriminate; split; reflexivity.
Qed.

Lemma SFmul_self_nan x : SFis_nan (SF64mul x x) = SFis_nan x.
Proof.
  unfold SF64mul. destruct x as [sx|sx| |sx mx ex]; try reflexivity.
  cbn [SFmul SFis_nan]. apply bra_sign.
Qed.

Lemma SFmul_self_sign x : SFsign (SF64mul x x) = false.
Proof.
  unfold SF64mul. destruct x as [sx|sx| |sx mx ex]; cbn [SFmul SFsign];
    rewrite ?Bool.xorb_nilpotent; try reflexivity.
  apply bra_sign.
Qed.


Lemma get_sign_spec (x : float) : get_sign x = SFsign (Prim2SF x).
Proof.
  unfold get_sign. rewrite is_zero_spec.
  destruct (Prim2SF x) as [s|s| |s m e] eqn:Hx; cbn [SFis_zero SFsign].
  - rewrite ltb_spec, div_spec, Hx. destruct s; reflexivity.
  - rewrite ltb_spec, Hx. destruct s; reflexivity.
  - rewrite ltb_spec, Hx. reflexivity.
  - rewrite ltb_spec, Hx. destruct s; reflexivity.
Qed.

Lemma mul_sign (x y : float) :
  is_nan (x * y) = false -> get_sign (x * y) = xorb (get_sign x) (get_sign y).
Proof.
  rewrite is_nan_spec, !get_sign_spec, mul_spec. apply SFmul_sign.
Qed.

Lemma mul_not_nan (x y : float) :
  is_nan (x * y) = false -> is_nan x = false /\ is_nan y = false.
Proof.
  rewrite !is_nan_spec, mul_spec. apply SFmul_not_nan.
Qed.

Lemma mul_self_nan (x : float) : is_nan (x * x) = is_nan x.
Proof.
  rewrite !is_nan_spec, mul_spec. apply SFmul_self_nan.
Qed.

Lemma mul_self_not_negative (x : float) :
  (x * x <? 0) = false /\ (is_nan (x * x) = false -> (0 <=? x * x) = true).
Proof.
  rewrite ltb_spec, leb_spec, is_nan_spec, mul_spec.
  change (Prim2SF 0) with (S754_zero false).
  pose proof (SFmul_self_sign (Prim2SF x)) as Hs.
  destruct (SF64mul (Prim2SF x) (Prim2SF x)) as [s|s| |s m e]; cbn [SFsign] in Hs;
    subst; split; try reflexivity; discriminate.
Qed.

Lemma mul_self_infinity (x : float) : is_infinity x = true -> x * x = infinity.
Proof.
  rewrite is_infinity_spec. intros H. apply Prim2SF_inj. rewrite mul_spec.
  destruct (Prim2SF x) as [s|s| |s m e]; try discriminate.
  destruct s; reflexivity.
Qed.


Lemma binary_normalize_not_nan z e :
  SFis_nan (binary_normalize prec emax z e false) = false.
Proof.
  destruct z as [|p|p]; [reflexivity| |]; cbn [binary_normalize]; unfold binary_round;
    destruct (shl_align p e _) as [mz ez]; apply bra_sign.
Qed.

Lemma SFsub_finite_not_nan x y :
  SFis_finite x = true -> SFis_finite y = true -> SFis_nan (SF64sub x y) = false.
Proof.
  unfold SF64sub.
  destruct x as [sx|sx| |sx mx ex], y as [sy|sy| |sy my ey]; try discriminate;
    intros _ _; cbn [SFsub]; try reflexivity.
  - destruct sx, sy; reflexivity.
  - apply binary_normalize_not_nan.
Qed.

Lemma SFmul_not_nan_r x y :
  SFis_nan x = false -> SFis_finite y = true -> SFis_zero y = false ->
  SFis_nan (SF64mul x y) = false.
Proof.
  unfold SF64mul.
  destruct x as [sx|sx| |sx mx ex], y as [sy|sy| |sy my ey]; try discriminate;
    intros _ _ _; cbn [SFmul]; try reflexivity.
  apply bra_sign.
Qed.

Lemma sub_finite_not_nan (x y : float) :
  is_finite x = true -> is_finite y = true -> is_nan (x - y) = false.
Proof.
  rewrite !is_finite_spec, is_nan_spec, sub_spec. apply SFsub_finite_not_nan.
Qed.

Lemma mul_not_nan_r (x y : float) :
  is_nan x = false -> is_finite y = true -> is_zero y = false ->
  is_nan (x * y) = false.
Proof.
  rewrite !is_nan_spec, is_finite_spec, is_zero_spec, mul_spec. apply SFmul_not_nan_r.
Qed.

Lemma mul_not_nan_l (x y : float) :
  is_finite x = true -> is_zero x = false -> is_nan y = false ->
  is_nan (x * y) = false.
Proof.
  rewrite !is_nan_spec, is_finite_spec, is_zero_spec, mul_spec.
  destruct (Prim2SF x) as [sx|sx| |sx mx ex], (Prim2SF y) as [sy|sy| |sy my ey];
    try discriminate; intros _ _ _; try reflexivity.
  unfold SF64mul. cbn [SFmul]. apply bra_sign.
Qed.

End IEEE.

(** ** Memory and the outputs of [Fq] *)

Lemma load_store_same (p : ptr) (v : double) (m : mem) :
  load (store p v m) p = v.
Proof.
  unfold load, store. now rewrite N.eqb_refl.
Qed.

Lemma load_store_other (p p' : ptr) (v : double) (m : mem) :
  p' <> p -> load (store p v m) p' = load m p'.
Proof.
  intros Hne. unfold load, store.
  destruct (N.eqb_spec p' p); [contradiction | reflexivity].
Qed.

Section Amplitude.

Variables sphere_volume sas_3j1x_x : double -> double.

Local Abbreviation Fq' := (Fq sphere_volume sas_3j1x_x).
Local Abbreviation form := (form_of sphere_volume sas_3j1x_x).

Lemma Fq_load_F2 q F1 F2 sld solvent_sld radius m :
  load (Fq' q F1 F2 sld solvent_sld radius m) F2 =
  form q sld solvent_sld radius * form q sld solvent_sld radius.
Proof.
  unfold Fq. cbv zeta. apply load_store_same.
Qed.

Lemma Fq_load_F1 q F1 F2 sld solvent_sld radius m :
  F1 <> F2 ->
  load (Fq' q F1 F2 sld solvent_sld radius m) F1 = form q sld solvent_sld radius.
Proof.
  intros Hne. unfold Fq. cbv zeta.
  rewrite load_store_other by exact Hne. apply load_store_same.
Qed.

Lemma Fq_load_other q F1 F2 sld solvent_sld radius m p :
  p <> F1 -> p <> F2 ->
  load (Fq' q F1 F2 sld solvent_sld radius m) p = load m p.
Proof.
  intros H1 H2. unfold Fq. cbv zeta.
  now rewrite !load_store_other.
Qed.

(** *** The amplitude under a change of arguments *)

Lemma form_of_swap q sld sld_solvent radius :
  form q sld_solvent sld radius = - form q sld sld_solvent radius \/
  (form q sld_solvent sld radius = form q sld sld_solvent radius /\
   IEEE.zero_or_nan (form q sld sld_solvent radius) = true).
Proof.
  unfold form_of.
  destruct (IEEE.sub_swap sld sld_solvent) as [H|[H1 H2]].
  - left. now rewrite H, IEEE.mul_opp_r, !IEEE.mul_opp_l.
  - right. rewrite H1, H2. split; [reflexivity|].
    now do 2 apply IEEE.zero_or_nan_mul_l.
Qed.

Lemma form_of_swap_square q sld sld_solvent radius :
  form q sld_solvent sld radius * form q sld_solvent sld radius =
  form q sld sld_solvent radius * form q sld sld_solvent radius.
Proof.
  destruct (form_of_swap q sld sld_solvent radius) as [H|[H _]]; rewrite H.
  - apply IEEE.mul_opp_opp.
  - reflexivity.
Qed.

Lemma form_of_nan q sld solvent_sld radius :
  is_nan (sld - solvent_sld) || is_nan (sphere_volume radius)
  || is_nan (sas_3j1x_x (q * radius)) = true ->
  is_nan (form q sld solvent_sld radius) = true.
Proof.
  unfold form_of. rewrite !Bool.orb_true_iff. intros [[H|H]|H].
  - now apply IEEE.mul_nan_l, IEEE.mul_nan_l, IEEE.mul_nan_r.
  - now apply IEEE.mul_nan_l, IEEE.mul_nan_r.
  - now apply IEEE.mul_nan_r.
Qed.

Lemma form_of_not_finite q sld solvent_sld radius :
  is_finite (sld - solvent_sld) && is_finite (sphere_volume radius)
  && is_finite (sas_3j1x_x (q * radius)) = false ->
  is_finite (form q sld solvent_sld radius) = false.
Proof.
  unfold form_of. rewrite !Bool.andb_false_iff. intros [[H|H]|H].
  - now apply IEEE.mul_not_finite_l, IEEE.mul_not_finite_l, IEEE.mul_not_finite_r.
  - now apply IEEE.mul_not_finite_l, IEEE.mul_not_finite_r.
  - now apply IEEE.mul_not_finite_r.
Qed.

Lemma form_of_zero q sld solvent_sld radius :
  is_finite (sphere_volume radius) = true ->
  is_finite (sas_3j1x_x (q * radius)) = true ->
  is_finite sld = true ->
  (sld =? solvent_sld) = true ->
  is_zero (form q sld solvent_sld radius) = true.
Proof.
  intros HV HJ Hsld Heq. unfold form_of.
  apply IEEE.mul_zero_l; [|exact HJ].
  apply IEEE.mul_zero_l; [|exact HV].
  apply IEEE.mul_zero_r; [reflexivity|].
  now apply IEEE.sub_eq_zero.
Qed.

(** When the volume at [radius'] is 8 times the volume at [radius] and the
    argument of [sas_3j1x_x] is the same, the amplitude is 8 times what it
    was, provided its two outer products stay in range. *)
Lemma form_of_scaled q q' sld solvent_sld radius radius' :
  IEEE.scaled 3 (sphere_volume radius) (sphere_volume radius') ->
  IEEE.is_normal (sphere_volume radius) = true ->
  q' * radius' = q * radius ->
  IEEE.product_in_range (c1e_2 * (sld - solvent_sld)) (sphere_volume radius) = true ->
  IEEE.product_in_range (c1e_2 * (sld - solvent_sld) * sphere_volume radius)
                        (sas_3j1x_x (q * radius)) = true ->
  form q' sld solvent_sld radius' = 8 * form q sld solvent_sld radius.
Proof.
  intros SV NV Hq HcV HWJ. unfold form_of. rewrite Hq.
  destruct (IEEE.exact_product_normal_finite_l _ _ (IEEE.product_in_range_exact _ _ HcV))
    as (sc & mc & ec & Hkc).
  destruct (IEEE.exact_product_normal_finite_r _ _ (IEEE.product_in_range_exact _ _ HWJ))
    as (sj & mj & ej & Hfq).
  pose proof (IEEE.scaled_refl _ _ _ _ Hkc) as Skc.
  pose proof (IEEE.scaled_refl _ _ _ _ Hfq) as Sfq.
  destruct (IEEE.scaled_mul _ _ _ _ 0 3 Skc SV) as [SW NW];
    [lia | lia | lia | rewrite NV; apply Bool.orb_true_r | exact HcV |].
  destruct (IEEE.scaled_mul _ _ _ _ (0 + 3) 0 SW Sfq) as [SF NF];
    [lia | lia | lia | now rewrite NW | exact HWJ |].
  now apply IEEE.scaled_8.
Qed.

End Amplitude.

(** The volume of the library, as the specification describes it, at twice
    the radius: the same mantissa, the exponent three higher. *)
Lemma sphere_volume_scaled (radius : double) :
  IEEE.is_normal radius = true ->
  is_finite (2 * radius) = true ->
  IEEE.product_in_range radius radius = true ->
  IEEE.product_in_range (radius * radius) radius = true ->
  IEEE.product_in_range Lib.four_thirds_pi (radius * radius * radius) = true ->
  IEEE.scaled 3 (Lib.sphere_volume radius) (Lib.sphere_volume (2 * radius)) /\
  IEEE.is_normal (Lib.sphere_volume radius) = true.
Proof.
  intros Hn H2 Hrr Hrrr Hc. unfold Lib.sphere_volume.
  assert (S1 : IEEE.scaled 1 radius (2 * radius))
    by (apply IEEE.scaled_pow2; [reflexivity | lia | exact Hn | exact H2]).
  destruct (IEEE.scaled_mul _ _ _ _ 1 1 S1 S1) as [S2 N2];
    [lia | lia | lia | now rewrite Hn | exact Hrr |].
  destruct (IEEE.scaled_mul _ _ _ _ (1 + 1) 1 S2 S1) as [S3 N3];
    [lia | lia | lia | now rewrite N2 | exact Hrrr |].
  assert (S0 : IEEE.scaled 0 Lib.four_thirds_pi Lib.four_thirds_pi)
    by (eapply IEEE.scaled_refl; reflexivity).
  destruct (IEEE.scaled_mul _ _ _ _ 0 (1 + 1 + 1) S0 S3) as [S4 N4];
    [lia | lia | lia | reflexivity | exact Hc |].
  split; [exact S4 | exact N4].
Qed.

(** ** The sample call, evaluated

    The volume is 904778.68423386058 and F1 is -47936.009306650791, as the
    scenario of the specification expects (volume ≈ 904778.68, F1 negative,
    F2 its square, and [Iq] the same as F2). *)

Example sample_volume :
  form_volume Lib.sphere_volume Sample.radius = 0x1.b9c955e53e68cp+19.
Proof.
  reflexivity.
Qed.

Example sample_F1 :
  load (Fq Lib.sphere_volume Lib.sas_3j1x_x_series Sample.q Sample.F1 Sample.F2
           Sample.sld Sample.sld_solvent Sample.radius Sample.m0) Sample.F1 =
  -0x1.768004c3d7619p+15.
Proof.
  reflexivity.
Qed.

Example sample_F2_Iq :
  load (Fq Lib.sphere_volume Lib.sas_3j1x_x_series Sample.q Sample.F1 Sample.F2
           Sample.sld Sample.sld_solvent Sample.radius Sample.m0) Sample.F2 =
  -0x1.768004c3d7619p+15 * -0x1.768004c3d7619p+15 /\
  Iq (Lib.sphere_form Lib.sphere_volume Lib.sas_3j1x_x_series)
     Sample.q Sample.sld Sample.sld_solvent Sample.radius =
  -0x1.768004c3d7619p+15 * -0x1.768004c3d7619p+15.
Proof.
  split; reflexivity.
Qed.

(** ** Properties of the kernel *)

(** C1: the intensity [Iq] returns, for every argument (so for every q >= 0
    and radius > 0), the value [Fq] writes to its second output [F2]; the
    function [Iq] calls is the library's [sphere_form], as the
    specification describes it. *)
Theorem Iq_is_Fq_F2 (sphere_volume sas_3j1x_x : double -> double)
        (q sld sld_solvent radius : double) (F1 F2 : ptr) (m : mem) :
  Iq (Lib.sphere_form sphere_volume sas_3j1x_x) q sld sld_solvent radius =
  load (Fq sphere_volume sas_3j1x_x q F1 F2 sld sld_solvent radius m) F2.
Proof.
  rewrite Fq_load_F2. reflexivity.
Qed.

(** C2: [Fq] leaves 1e-2 * (sld - solvent_sld) * sphere_volume(radius) *
    sas_3j1x_x(q * radius) in its first output location and the square of
    that value in the second, for every argument and any two distinct
    output locations. *)
Theorem Fq_outputs (sphere_volume sas_3j1x_x : double -> double)
        (q sld solvent_sld radius : double) (F1 F2 : ptr) (m : mem) :
  F1 <> F2 ->
  let m' := Fq sphere_volume sas_3j1x_x q F1 F2 sld solvent_sld radius m in
  load m' F1 =
    c1e_2 * (sld - solvent_sld) * sphere_volume radius * sas_3j1x_x (q * radius) /\
  load m' F2 = load m' F1 * load m' F1.
Proof.
  intros Hne m'. subst m'.
  rewrite Fq_load_F2, Fq_load_F1 by exact Hne. split; reflexivity.
Qed.

Lemma Fq_outputs_at_sample :
  Sample.F1 <> Sample.F2 /\
  let m' := Fq Lib.sphere_volume Lib.sas_3j1x_x_series Sample.q Sample.F1 Sample.F2
               Sample.sld Sample.sld_solvent Sample.radius Sample.m0 in
  load m' Sample.F1 =
    c1e_2 * (Sample.sld - Sample.sld_solvent) * Lib.sphere_volume Sample.radius *
    Lib.sas_3j1x_x_series (Sample.q * Sample.radius) /\
  load m' Sample.F2 = load m' Sample.F1 * load m' Sample.F1.
Proof.
  split; [discriminate|].
  apply (Fq_outputs Lib.sphere_volume Lib.sas_3j1x_x_series). discriminate.
Defined.

(** C3: for every q, sld, solvent_sld and radius the second output of [Fq]
    is exactly the product of the first output with itself. *)
Theorem Fq_F2_is_F1_squared (sphere_volume sas_3j1x_x : double -> double)
        (q sld solvent_sld radius : double) (F1 F2 : ptr) (m : mem) :
  F1 <> F2 ->
  load (Fq sphere_volume sas_3j1x_x q F1 F2 sld solvent_sld radius m) F2 =
  load (Fq sphere_volume sas_3j1x_x q F1 F2 sld solvent_sld radius m) F1 *
  load (Fq sphere_volume sas_3j1x_x q F1 F2 sld solvent_sld radius m) F1.
Proof.
  intros Hne. rewrite Fq_load_F2, Fq_load_F1 by exact Hne. reflexivity.
Qed.

Lemma Fq_F2_is_F1_squared_at_sample :
  Sample.F1 <> Sample.F2 /\
  load (Fq Lib.sphere_volume Lib.sas_3j1x_x_series Sample.q Sample.F1 Sample.F2
           Sample.sld Sample.sld_solvent Sample.radius Sample.m0) Sample.F2 =
  load (Fq Lib.sphere_volume Lib.sas_3j1x_x_series Sample.q Sample.F1 Sample.F2
           Sample.sld Sample.sld_solvent Sample.radius Sample.m0) Sample.F1 *
  load (Fq Lib.sphere_volume Lib.sas_3j1x_x_series Sample.q Sample.F1 Sample.F2
           Sample.sld Sample.sld_solvent Sample.radius Sample.m0) Sample.F1.
Proof.
  split; [discriminate|].
  apply Fq_F2_is_F1_squared. discriminate.
Defined.

(** C4: [form_volume] returns the value of the library's [sphere_volume] at
    its only argument, the radius; with [sphere_volume] as the
    specification describes it that is (4/3)·π·radius³. *)
Theorem form_volume_is_sphere_volume :
  (forall (sphere_volume : double -> double) (radius : double),
      form_volume sphere_volume radius = sphere_volume radius) /\
  (forall radius : double,
      form_volume Lib.sphere_volume radius =
      Lib.four_thirds_pi * (radius * radius * radius)).
Proof.
  split; reflexivity.
Qed.

(** C5: at q = 0, for every sld and solvent_sld and every finite radius > 0,
    [Fq] writes F1 = 1e-2 * (sld - solvent_sld) * sphere_volume(radius),
    because the library's [sas_3j1x_x] is 1 at 0, and F2 is the square of
    F1. *)
Theorem Fq_at_q_zero (sphere_volume sas_3j1x_x : double -> double)
        (sld solvent_sld radius : double) (F1 F2 : ptr) (m : mem) :
  sas_3j1x_x 0 = 1 ->
  (0 <? radius) = true -> is_finite radius = true ->
  F1 <> F2 ->
  let m' := Fq sphere_volume sas_3j1x_x 0 F1 F2 sld solvent_sld radius m in
  load m' F1 = c1e_2 * (sld - solvent_sld) * sphere_volume radius /\
  load m' F2 = load m' F1 * load m' F1.
Proof.
  intros HJ Hpos Hfin Hne m'. subst m'.
  rewrite Fq_load_F2, Fq_load_F1 by exact Hne. unfold form_of.
  rewrite (IEEE.mul_zero_pos radius Hpos Hfin), HJ, IEEE.mul_one_r.
  split; reflexivity.
Qed.

Lemma Fq_at_q_zero_at_sample :
  Lib.sas_3j1x_x_series 0 = 1 /\
  (0 <? Sample.radius) = true /\ is_finite Sample.radius = true /\
  Sample.F1 <> Sample.F2 /\
  let m' := Fq Lib.sphere_volume Lib.sas_3j1x_x_series 0 Sample.F1 Sample.F2
               Sample.sld Sample.sld_solvent Sample.radius Sample.m0 in
  load m' Sample.F1 =
    c1e_2 * (Sample.sld - Sample.sld_solvent) * Lib.sphere_volume Sample.radius /\
  load m' Sample.F2 = load m' Sample.F1 * load m' Sample.F1.
Proof.
  repeat (split; [first [reflexivity | discriminate]|]).
  apply (Fq_at_q_zero Lib.sphere_volume Lib.sas_3j1x_x_series);
    first [reflexivity | discriminate].
Defined.

(** C6: for every argument, exchanging sld and sld_solvent turns the first
    output of [Fq] into the negation of what it was (the same number as
    -F1) and leaves the second output and the value of [Iq] as they
    were. *)
Theorem swap_sld_negates_F1 (sphere_volume sas_3j1x_x : double -> double)
        (q sld sld_solvent radius : double) (F1 F2 : ptr) (m : mem) :
  F1 <> F2 ->
  let m1 := Fq sphere_volume sas_3j1x_x q F1 F2 sld sld_solvent radius m in
  let m2 := Fq sphere_volume sas_3j1x_x q F1 F2 sld_solvent sld radius m in
  same_value (load m2 F1) (- load m1 F1) /\
  load m2 F2 = load m1 F2 /\
  Iq (Lib.sphere_form sphere_volume sas_3j1x_x) q sld_solvent sld radius =
  Iq (Lib.sphere_form sphere_volume sas_3j1x_x) q sld sld_solvent radius.
Proof.
  intros Hne m1 m2. subst m1 m2.
  rewrite !Fq_load_F2, !Fq_load_F1 by exact Hne.
  split; [|split].
  - destruct (form_of_swap sphere_volume sas_3j1x_x q sld sld_solvent radius)
      as [H|[H Hz]]; rewrite H.
    + now left.
    + apply IEEE.zero_or_nan_eqb_opp, Hz.
  - apply form_of_swap_square.
  - apply form_of_swap_square.
Qed.

Lemma swap_sld_negates_F1_at_sample :
  Sample.F1 <> Sample.F2 /\
  let m1 := Fq Lib.sphere_volume Lib.sas_3j1x_x_series Sample.q Sample.F1 Sample.F2
               Sample.sld Sample.sld_solvent Sample.radius Sample.m0 in
  let m2 := Fq Lib.sphere_volume Lib.sas_3j1x_x_series Sample.q Sample.F1 Sample.F2
               Sample.sld_solvent Sample.sld Sample.radius Sample.m0 in
  same_value (load m2 Sample.F1) (- load m1 Sample.F1) /\
  load m2 Sample.F2 = load m1 Sample.F2 /\
  Iq (Lib.sphere_form Lib.sphere_volume Lib.sas_3j1x_x_series)
     Sample.q Sample.sld_solvent Sample.sld Sample.radius =
  Iq (Lib.sphere_form Lib.sphere_volume Lib.sas_3j1x_x_series)
     Sample.q Sample.sld Sample.sld_solvent Sample.radius.
Proof.
  split; [discriminate|].
  apply (swap_sld_negates_F1 Lib.sphere_volume Lib.sas_3j1x_x_series). discriminate.
Defined.

(** C7, as amended: replacing radius by 2*radius and q by q/2 multiplies the
    result of [form_volume] and the F1 output of [Fq] by exactly 8 whenever
    radius is a normal double whose double is finite, the product q*radius
    is the same double before and after, and each of the five products that
    [sphere_volume] and [Fq] form has an exact value of magnitude at least
    2^-1022 and stays finite when multiplied by 8. *)
Theorem scale_law (sas_3j1x_x : double -> double) (q sld solvent_sld radius : double)
        (F1 F2 : ptr) (m : mem) :
  IEEE.is_normal radius = true ->
  is_finite (2 * radius) = true ->
  q / 2 * (2 * radius) = q * radius ->
  IEEE.product_in_range radius radius = true ->
  IEEE.product_in_range (radius * radius) radius = true ->
  IEEE.product_in_range Lib.four_thirds_pi (radius * radius * radius) = true ->
  IEEE.product_in_range (c1e_2 * (sld - solvent_sld)) (Lib.sphere_volume radius) = true ->
  IEEE.product_in_range (c1e_2 * (sld - solvent_sld) * Lib.sphere_volume radius)
                        (sas_3j1x_x (q * radius)) = true ->
  F1 <> F2 ->
  form_volume Lib.sphere_volume (2 * radius) = 8 * form_volume Lib.sphere_volume radius /\
  load (Fq Lib.sphere_volume sas_3j1x_x (q / 2) F1 F2 sld solvent_sld (2 * radius) m) F1 =
  8 * load (Fq Lib.sphere_volume sas_3j1x_x q F1 F2 sld solvent_sld radius m) F1.
Proof.
  intros Hn H2 Hq Hrr Hrrr Hc HcV HWJ Hne.
  destruct (sphere_volume_scaled radius Hn H2 Hrr Hrrr Hc) as [SV NV].
  split.
  - unfold form_volume. now apply IEEE.scaled_8.
  - rewrite !Fq_load_F1 by exact Hne.
    now apply (form_of_scaled Lib.sphere_volume sas_3j1x_x q (q / 2)
                              sld solvent_sld radius (2 * radius)).
Qed.

Lemma scale_law_at_sample :
  IEEE.is_normal Sample.radius = true /\
  is_finite (2 * Sample.radius) = true /\
  Sample.q / 2 * (2 * Sample.radius) = Sample.q * Sample.radius /\
  IEEE.product_in_range Sample.radius Sample.radius = true /\
  IEEE.product_in_range (Sample.radius * Sample.radius) Sample.radius = true /\
  IEEE.product_in_range Lib.four_thirds_pi
    (Sample.radius * Sample.radius * Sample.radius) = true /\
  IEEE.product_in_range (c1e_2 * (Sample.sld - Sample.sld_solvent))
    (Lib.sphere_volume Sample.radius) = true /\
  IEEE.product_in_range
    (c1e_2 * (Sample.sld - Sample.sld_solvent) * Lib.sphere_volume Sample.radius)
    (Lib.sas_3j1x_x_series (Sample.q * Sample.radius)) = true /\
  Sample.F1 <> Sample.F2 /\
  form_volume Lib.sphere_volume (2 * Sample.radius) =
    8 * form_volume Lib.sphere_volume Sample.radius /\
  load (Fq Lib.sphere_volume Lib.sas_3j1x_x_series (Sample.q / 2) Sample.F1 Sample.F2
           Sample.sld Sample.sld_solvent (2 * Sample.radius) Sample.m0) Sample.F1 =
  8 * load (Fq Lib.sphere_volume Lib.sas_3j1x_x_series Sample.q Sample.F1 Sample.F2
               Sample.sld Sample.sld_solvent Sample.radius Sample.m0) Sample.F1.
Proof.
  repeat (split; [first [reflexivity | discriminate]|]).
  apply (scale_law Lib.sas_3j1x_x_series); first [reflexivity | discriminate].
Defined.

(** C7, as stated, fails for a tiny radius: at radius 1e-108 the cube
    underflows to 0, so the volume is 0, while at twice that radius the
    volume is 8·2^-1074, not 8·0; with q = 0, sld = 1000 and solvent_sld = 0
    the F1 output goes from 0 to 80·2^-1074 likewise. *)
Lemma scale_law_fails_at_tiny_radius :
  let q := 0 in
  let sld := 1000 in
  let solvent_sld := 0 in
  let radius := 0x1.2c9d0b1923745p-359 in
  let m1 := Fq Lib.sphere_volume Lib.sas_3j1x_x_series q Sample.F1 Sample.F2
               sld solvent_sld radius Sample.m0 in
  let m2 := Fq Lib.sphere_volume Lib.sas_3j1x_x_series (q / 2) Sample.F1 Sample.F2
               sld solvent_sld (2 * radius) Sample.m0 in
  (0 <=? q) = true /\ (0 <? radius) = true /\ is_finite radius = true /\
  q / 2 * (2 * radius) = q * radius /\
  form_volume Lib.sphere_volume radius = 0 /\
  form_volume Lib.sphere_volume (2 * radius) = 0x8p-1074 /\
  (form_volume Lib.sphere_volume (2 * radius) =?
   8 * form_volume Lib.sphere_volume radius) = false /\
  load m1 Sample.F1 = 0 /\
  load m2 Sample.F1 = 0x50p-1074 /\
  (load m2 Sample.F1 =? 8 * load m1 Sample.F1) = false.
Proof.
  cbv zeta. repeat (split; [reflexivity|]). reflexivity.
Qed.

(** C8: a call of [Fq] changes memory at its two output locations only; what
    it leaves there is determined by q, sld, solvent_sld and radius, whatever
    the memory held before; and a second call with the same arguments
    changes nothing more. *)
Theorem Fq_frame (sphere_volume sas_3j1x_x : double -> double)
        (q sld solvent_sld radius : double) (F1 F2 : ptr) :
  (forall (m : mem) (p : ptr),
      p <> F1 -> p <> F2 ->
      load (Fq sphere_volume sas_3j1x_x q F1 F2 sld solvent_sld radius m) p = load m p) /\
  (forall m m' : mem,
      load (Fq sphere_volume sas_3j1x_x q F1 F2 sld solvent_sld radius m) F1 =
      load (Fq sphere_volume sas_3j1x_x q F1 F2 sld solvent_sld radius m') F1 /\
      load (Fq sphere_volume sas_3j1x_x q F1 F2 sld solvent_sld radius m) F2 =
      load (Fq sphere_volume sas_3j1x_x q F1 F2 sld solvent_sld radius m') F2) /\
  (forall (m : mem) (p : ptr),
      load (Fq sphere_volume sas_3j1x_x q F1 F2 sld solvent_sld radius
               (Fq sphere_volume sas_3j1x_x q F1 F2 sld solvent_sld radius m)) p =
      load (Fq sphere_volume sas_3j1x_x q F1 F2 sld solvent_sld radius m) p).
Proof.
  split; [|split].
  - intros m p H1 H2. now apply Fq_load_other.
  - intros m m'. unfold Fq, load, store. cbv zeta.
    rewrite !N.eqb_refl. destruct (N.eqb F1 F2); split; reflexivity.
  - intros m p. unfold Fq, load, store. cbv zeta.
    destruct (N.eqb p F2); [reflexivity|].
    destruct (N.eqb p F1); reflexivity.
Qed.

Lemma Fq_frame_at_sample :
  let Fq' := Fq Lib.sphere_volume Lib.sas_3j1x_x_series Sample.q Sample.F1 Sample.F2
                Sample.sld Sample.sld_solvent Sample.radius in
  let m1 : mem := fun _ => 1 in
  (2%N <> Sample.F1 /\ 2%N <> Sample.F2) /\
  load (Fq' m1) 2%N = load m1 2%N /\
  load (Fq' Sample.m0) Sample.F1 = load (Fq' m1) Sample.F1 /\
  load (Fq' Sample.m0) Sample.F2 = load (Fq' m1) Sample.F2 /\
  load (Fq' (Fq' m1)) Sample.F1 = load (Fq' m1) Sample.F1.
Proof.
  cbv zeta.
  destruct (Fq_frame Lib.sphere_volume Lib.sas_3j1x_x_series Sample.q
                     Sample.sld Sample.sld_solvent Sample.radius Sample.F1 Sample.F2)
    as (Hother & Hsame & Hagain).
  split; [split; discriminate|].
  split; [apply Hother; discriminate|].
  split; [apply Hsame|]. split; [apply Hsame | apply Hagain].
Defined.

(** C9: the three evaluators are total functions of their arguments, valid
    or not: [form_volume] and [Iq] return whatever the library function
    returns at the arguments they are given, and [Fq] lets NaN and infinity
    through: a NaN or infinite sld or solvent_sld gives a NaN or infinite
    contrast, a NaN or infinite q or radius reaches the library functions as
    it is, and a NaN (or non-finite) contrast, volume or Bessel ratio comes
    out as NaN (or non-finite) F1 and F2. *)
Theorem evaluators_total_and_propagate (sphere_volume sas_3j1x_x : double -> double)
        (sphere_form : double -> double -> double -> double -> double)
        (q sld solvent_sld radius : double) (F1 F2 : ptr) (m : mem) :
  F1 <> F2 ->
  let contrast := sld - solvent_sld in
  let m' := Fq sphere_volume sas_3j1x_x q F1 F2 sld solvent_sld radius m in
  form_volume sphere_volume radius = sphere_volume radius /\
  Iq sphere_form q sld solvent_sld radius = sphere_form q radius sld solvent_sld /\
  (is_nan sld || is_nan solvent_sld = true -> is_nan contrast = true) /\
  (is_finite sld && is_finite solvent_sld = false -> is_finite contrast = false) /\
  (is_nan q || is_nan radius = true -> is_nan (q * radius) = true) /\
  (is_finite q && is_finite radius = false -> is_finite (q * radius) = false) /\
  (is_nan contrast || is_nan (sphere_volume radius)
   || is_nan (sas_3j1x_x (q * radius)) = true ->
   is_nan (load m' F1) = true /\ is_nan (load m' F2) = true) /\
  (is_finite contrast && is_finite (sphere_volume radius)
   && is_finite (sas_3j1x_x (q * radius)) = false ->
   is_finite (load m' F1) = false /\ is_finite (load m' F2) = false).
Proof.
  intros Hne contrast m'. subst contrast m'.
  rewrite Fq_load_F2, Fq_load_F1 by exact Hne.
  split; [reflexivity|]. split; [reflexivity|].
  split; [apply IEEE.sub_nan|]. split; [apply IEEE.sub_not_finite|].
  split; [|split; [|split]].
  - rewrite Bool.orb_true_iff. intros [H|H];
      [now apply IEEE.mul_nan_l | now apply IEEE.mul_nan_r].
  - rewrite Bool.andb_false_iff. intros [H|H];
      [now apply IEEE.mul_not_finite_l | now apply IEEE.mul_not_finite_r].
  - intros H. apply form_of_nan in H.
    split; [exact H | now apply IEEE.mul_nan_l].
  - intros H. apply form_of_not_finite in H.
    split; [exact H | now apply IEEE.mul_not_finite_l].
Qed.

Lemma evaluators_total_and_propagate_at_sample :
  Sample.F1 <> Sample.F2 /\
  let contrast := nan - Sample.sld_solvent in
  let m' := Fq Lib.sphere_volume Lib.sas_3j1x_x_series Sample.q Sample.F1 Sample.F2
               nan Sample.sld_solvent (- Sample.radius) Sample.m0 in
  form_volume Lib.sphere_volume (- Sample.radius) = Lib.sphere_volume (- Sample.radius) /\
  Iq (Lib.sphere_form Lib.sphere_volume Lib.sas_3j1x_x_series)
     Sample.q nan Sample.sld_solvent (- Sample.radius) =
  Lib.sphere_form Lib.sphere_volume Lib.sas_3j1x_x_series
     Sample.q (- Sample.radius) nan Sample.sld_solvent /\
  (is_nan nan || is_nan Sample.sld_solvent = true -> is_nan contrast = true) /\
  (is_finite nan && is_finite Sample.sld_solvent = false -> is_finite contrast = false) /\
  (is_nan Sample.q || is_nan (- Sample.radius) = true ->
   is_nan (Sample.q * - Sample.radius) = true) /\
  (is_finite Sample.q && is_finite (- Sample.radius) = false ->
   is_finite (Sample.q * - Sample.radius) = false) /\
  (is_nan contrast || is_nan (Lib.sphere_volume (- Sample.radius))
   || is_nan (Lib.sas_3j1x_x_series (Sample.q * - Sample.radius)) = true ->
   is_nan (load m' Sample.F1) = true /\ is_nan (load m' Sample.F2) = true) /\
  (is_finite contrast && is_finite (Lib.sphere_volume (- Sample.radius))
   && is_finite (Lib.sas_3j1x_x_series (Sample.q * - Sample.radius)) = false ->
   is_finite (load m' Sample.F1) = false /\ is_finite (load m' Sample.F2) = false).
Proof.
  split; [discriminate|].
  apply (evaluators_total_and_propagate Lib.sphere_volume Lib.sas_3j1x_x_series).
  discriminate.
Defined.

(** C10, as amended: when sld is finite and equal to solvent_sld, and
    sphere_volume(radius) and sas_3j1x_x(q*radius) are finite, [Fq] writes a
    zero (of either sign) to F1 and +0 to F2, whatever q and radius are. *)
Theorem zero_contrast_zero_amplitude (sphere_volume sas_3j1x_x : double -> double)
        (q sld solvent_sld radius : double) (F1 F2 : ptr) (m : mem) :
  is_finite (sphere_volume radius) = true ->
  is_finite (sas_3j1x_x (q * radius)) = true ->
  is_finite sld = true ->
  (sld =? solvent_sld) = true ->
  F1 <> F2 ->
  let m' := Fq sphere_volume sas_3j1x_x q F1 F2 sld solvent_sld radius m in
  (load m' F1 =? 0) = true /\ load m' F2 = 0.
Proof.
  intros HV HJ Hsld Heq Hne m'. subst m'.
  rewrite Fq_load_F2, Fq_load_F1 by exact Hne.
  pose proof (form_of_zero sphere_volume sas_3j1x_x q sld solvent_sld radius
                           HV HJ Hsld Heq) as Hz.
  split; [exact Hz | now apply IEEE.mul_zero_self].
Qed.

Lemma zero_contrast_zero_amplitude_at_sample :
  is_finite (Lib.sphere_volume Sample.radius) = true /\
  is_finite (Lib.sas_3j1x_x_series (Sample.q * Sample.radius)) = true /\
  is_finite Sample.sld = true /\
  (Sample.sld =? Sample.sld) = true /\
  Sample.F1 <> Sample.F2 /\
  let m' := Fq Lib.sphere_volume Lib.sas_3j1x_x_series Sample.q Sample.F1 Sample.F2
               Sample.sld Sample.sld Sample.radius Sample.m0 in
  (load m' Sample.F1 =? 0) = true /\ load m' Sample.F2 = 0.
Proof.
  repeat (split; [first [reflexivity | discriminate]|]).
  apply (zero_contrast_zero_amplitude Lib.sphere_volume Lib.sas_3j1x_x_series);
    first [reflexivity | discriminate].
Defined.

(** C10, as stated, fails when both scattering-length densities are +∞: they
    compare equal, the volume and the Bessel ratio are finite, and yet the
    contrast ∞ − ∞ is NaN and so are F1 and F2. *)
Lemma zero_contrast_fails_at_infinite_sld :
  let m' := Fq Lib.sphere_volume Lib.sas_3j1x_x_series Sample.q Sample.F1 Sample.F2
               infinity infinity Sample.radius Sample.m0 in
  is_finite (Lib.sphere_volume Sample.radius) = true /\
  is_finite (Lib.sas_3j1x_x_series (Sample.q * Sample.radius)) = true /\
  (infinity =? infinity) = true /\
  Sample.F1 <> Sample.F2 /\
  load m' Sample.F1 = nan /\ load m' Sample.F2 = nan /\
  (load m' Sample.F1 =? 0) = false /\ (load m' Sample.F2 =? 0) = false.
Proof.
  cbv zeta. repeat (split; [first [reflexivity | discriminate]|]). reflexivity.
Qed.

(** ** Further properties of [Fq] *)

(** X1: the second output of [Fq] is never negative: it does not compare
    below 0, and unless it is NaN it compares at or above 0. *)
Theorem Fq_F2_never_negative (sphere_volume sas_3j1x_x : double -> double)
        (q sld solvent_sld radius : double) (F1 F2 : ptr) (m : mem) :
  let v2 := load (Fq sphere_volume sas_3j1x_x q F1 F2 sld solvent_sld radius m) F2 in
  (v2 <? 0) = false /\ (is_nan v2 = false -> (0 <=? v2) = true).
Proof.
  cbv zeta. rewrite Fq_load_F2. apply IEEE.mul_self_not_negative.
Qed.

(** X2: the second output of [Fq] follows the first: it is NaN exactly when
    F1 is, +0 when F1 is a zero of either sign, +∞ when F1 is infinite, and
    finite only if F1 is finite. *)
Theorem Fq_F2_follows_F1 (sphere_volume sas_3j1x_x : double -> double)
        (q sld solvent_sld radius : double) (F1 F2 : ptr) (m : mem) :
  F1 <> F2 ->
  let m' := Fq sphere_volume sas_3j1x_x q F1 F2 sld solvent_sld radius m in
  is_nan (load m' F2) = is_nan (load m' F1) /\
  (is_zero (load m' F1) = true -> load m' F2 = 0) /\
  (is_infinity (load m' F1) = true -> load m' F2 = infinity) /\
  (is_finite (load m' F2) = true -> is_finite (load m' F1) = true).
Proof.
  intros Hne m'. subst m'.
  rewrite Fq_load_F2, Fq_load_F1 by exact Hne.
  split; [apply IEEE.mul_self_nan|].
  split; [apply IEEE.mul_zero_self|].
  split; [apply IEEE.mul_self_infinity|].
  intros H2.
  destruct (is_finite (form_of sphere_volume sas_3j1x_x q sld solvent_sld radius)) eqn:H1;
    [reflexivity|].
  now rewrite (IEEE.mul_not_finite_l _ _ H1) in H2.
Qed.

Lemma Fq_F2_follows_F1_at_sample :
  Sample.F1 <> Sample.F2 /\
  let m' := Fq Lib.sphere_volume Lib.sas_3j1x_x_series Sample.q Sample.F1 Sample.F2
               Sample.sld Sample.sld_solvent Sample.radius Sample.m0 in
  is_nan (load m' Sample.F2) = is_nan (load m' Sample.F1) /\
  (is_zero (load m' Sample.F1) = true -> load m' Sample.F2 = 0) /\
  (is_infinity (load m' Sample.F1) = true -> load m' Sample.F2 = infinity) /\
  (is_finite (load m' Sample.F2) = true -> is_finite (load m' Sample.F1) = true).
Proof.
  split; [discriminate|].
  apply (Fq_F2_follows_F1 Lib.sphere_volume Lib.sas_3j1x_x_series). discriminate.
Defined.

(** X3: two calls of [Fq] whose output locations are pairwise distinct can
    be made in either order: the resulting memories agree everywhere. *)
Theorem Fq_calls_commute (sphere_volume sas_3j1x_x : double -> double)
        (q sld solvent_sld radius : double) (F1 F2 : ptr)
        (q' sld' solvent_sld' radius' : double) (G1 G2 : ptr) (m : mem) :
  F1 <> G1 -> F1 <> G2 -> F2 <> G1 -> F2 <> G2 ->
  forall p : ptr,
    load (Fq sphere_volume sas_3j1x_x q F1 F2 sld solvent_sld radius
             (Fq sphere_volume sas_3j1x_x q' G1 G2 sld' solvent_sld' radius' m)) p =
    load (Fq sphere_volume sas_3j1x_x q' G1 G2 sld' solvent_sld' radius'
             (Fq sphere_volume sas_3j1x_x q F1 F2 sld solvent_sld radius m)) p.
Proof.
  intros H11 H12 H21 H22 p. unfold Fq, load, store. cbv zeta.
  destruct (N.eqb_spec p F2) as [->|HF2].
  - destruct (N.eqb_spec F2 G2); [contradiction|].
    destruct (N.eqb_spec F2 G1); [contradiction|]. reflexivity.
  - destruct (N.eqb_spec p F1) as [->|HF1].
    + destruct (N.eqb_spec F1 G2); [contradiction|].
      destruct (N.eqb_spec F1 G1); [contradiction|]. reflexivity.
    + reflexivity.
Qed.

Lemma Fq_calls_commute_at_sample :
  let call1 := Fq Lib.sphere_volume Lib.sas_3j1x_x_series Sample.q Sample.F1 Sample.F2
                  Sample.sld Sample.sld_solvent Sample.radius in
  let call2 := Fq Lib.sphere_volume Lib.sas_3j1x_x_series 0 2%N 3%N
                  Sample.sld_solvent Sample.sld Sample.radius in
  (Sample.F1 <> 2%N /\ Sample.F1 <> 3%N /\ Sample.F2 <> 2%N /\ Sample.F2 <> 3%N) /\
  load (call1 (call2 Sample.m0)) Sample.F1 = load (call2 (call1 Sample.m0)) Sample.F1 /\
  load (call1 (call2 Sample.m0)) 3%N = load (call2 (call1 Sample.m0)) 3%N.
Proof.
  cbv zeta.
  split; [repeat split; discriminate|].
  split; apply Fq_calls_commute; discriminate.
Defined.

(** X4: when both output pointers of [Fq] are the same location, the
    second write wins: that location ends with the square form*form, the
    amplitude itself is not kept, and no other location changes. *)
Theorem Fq_aliased_outputs (sphere_volume sas_3j1x_x : double -> double)
        (q sld solvent_sld radius : double) (F : ptr) (m : mem) :
  let form :=
    c1e_2 * (sld - solvent_sld) * sphere_volume radius * sas_3j1x_x (q * radius) in
  load (Fq sphere_volume sas_3j1x_x q F F sld solvent_sld radius m) F = form * form /\
  forall p : ptr,
    p <> F -> load (Fq sphere_volume sas_3j1x_x q F F sld solvent_sld radius m) p = load m p.
Proof.
  cbv zeta. split.
  - now rewrite Fq_load_F2.
  - intros p Hp. now apply Fq_load_other.
Qed.


(** X6: unless F1 is NaN, its sign bit is the exclusive or of the sign
    bits of the contrast sld - solvent_sld, of sphere_volume(radius) and of
    sas_3j1x_x(q*radius), also when the products round to zero or overflow. *)
Theorem Fq_F1_sign (sphere_volume sas_3j1x_x : double -> double)
        (q sld solvent_sld radius : double) (F1 F2 : ptr) (m : mem) :
  F1 <> F2 ->
  let v1 := load (Fq sphere_volume sas_3j1x_x q F1 F2 sld solvent_sld radius m) F1 in
  is_nan v1 = false ->
  get_sign v1 =
  xorb (xorb (get_sign (sld - solvent_sld)) (get_sign (sphere_volume radius)))
       (get_sign (sas_3j1x_x (q * radius))).
Proof.
  intros Hne v1. subst v1. rewrite Fq_load_F1 by exact Hne. unfold form_of.
  intros H3.
  destruct (IEEE.mul_not_nan _ _ H3) as [H2 _].
  destruct (IEEE.mul_not_nan _ _ H2) as [H1 _].
  now rewrite (IEEE.mul_sign _ _ H3), (IEEE.mul_sign _ _ H2), (IEEE.mul_sign _ _ H1).
Qed.

Lemma Fq_F1_sign_at_sample :
  Sample.F1 <> Sample.F2 /\
  let v1 := load (Fq Lib.sphere_volume Lib.sas_3j1x_x_series Sample.q Sample.F1 Sample.F2
                     Sample.sld Sample.sld_solvent Sample.radius Sample.m0) Sample.F1 in
  is_nan v1 = false /\
  get_sign v1 =
  xorb (xorb (get_sign (Sample.sld - Sample.sld_solvent))
             (get_sign (Lib.sphere_volume Sample.radius)))
       (get_sign (Lib.sas_3j1x_x_series (Sample.q * Sample.radius))).
Proof.
  split; [discriminate|]. split; [reflexivity|].
  apply (Fq_F1_sign Lib.sphere_volume Lib.sas_3j1x_x_series);
    first [reflexivity | discriminate].
Defined.

(** X7: with finite sld and solvent_sld and a finite, non-zero volume and
    Bessel ratio, neither output of [Fq] is NaN (an overflow gives an
    infinity, an underflow a zero). *)
Theorem Fq_never_nan (sphere_volume sas_3j1x_x : double -> double)
        (q sld solvent_sld radius : double) (F1 F2 : ptr) (m : mem) :
  is_finite sld = true -> is_finite solvent_sld = true ->
  is_finite (sphere_volume radius) = true -> is_zero (sphere_volume radius) = false ->
  is_finite (sas_3j1x_x (q * radius)) = true ->
  is_zero (sas_3j1x_x (q * radius)) = false ->
  F1 <> F2 ->
  let m' := Fq sphere_volume sas_3j1x_x q F1 F2 sld solvent_sld radius m in
  is_nan (load m' F1) = false /\ is_nan (load m' F2) = false.
Proof.
  intros Hs Hv HV HV0 HJ HJ0 Hne m'. subst m'.
  rewrite Fq_load_F2, Fq_load_F1 by exact Hne.
  assert (H1 : is_nan (form_of sphere_volume sas_3j1x_x q sld solvent_sld radius) = false).
  { unfold form_of.
    apply IEEE.mul_not_nan_r; [|exact HJ|exact HJ0].
    apply IEEE.mul_not_nan_r; [|exact HV|exact HV0].
    apply IEEE.mul_not_nan_l; [reflexivity|reflexivity|].
    now apply IEEE.sub_finite_not_nan. }
  split; [exact H1|]. now rewrite IEEE.mul_self_nan.
Qed.

Lemma Fq_never_nan_at_sample :
  is_finite Sample.sld = true /\ is_finite Sample.sld_solvent = true /\
  is_finite (Lib.sphere_volume Sample.radius) = true /\
  is_zero (Lib.sphere_volume Sample.radius) = false /\
  is_finite (Lib.sas_3j1x_x_series (Sample.q * Sample.radius)) = true /\
  is_zero (Lib.sas_3j1x_x_series (Sample.q * Sample.radius)) = false /\
  Sample.F1 <> Sample.F2 /\
  let m' := Fq Lib.sphere_volume Lib.sas_3j1x_x_series Sample.q Sample.F1 Sample.F2
               Sample.sld Sample.sld_solvent Sample.radius Sample.m0 in
  is_nan (load m' Sample.F1) = false /\ is_nan (load m' Sample.F2) = false.
Proof.
  repeat (split; [first [reflexivity | discriminate]|]).
  apply (Fq_never_nan Lib.sphere_volume Lib.sas_3j1x_x_series);
    first [reflexivity | discriminate].
Defined.
